(** * The byte mutator of fuzzers/simple/cpp/simple-fuzzer.cpp

    A shallow embedding of the program's [main] and of its mutation loop,
    followed by the properties the specification states about it.

    Conventions of the embedding.
    - A [char] is an 8-bit value: [ascii].  A [std::string] is a [list ascii]
      (it may hold any byte, NUL included).
    - [int] is 32 bits wide and [size_t] 64 bits wide (LP64).  Arithmetic on
      them is carried out on [Z] and the wrap-around is written out
      ([wrap_int], [to_size_t], [to_uint]).
    - [rand]/[srand] belong to the C library: they are an interface
      ([RandGen]) of which two instances are given.
    - The environment of one run (the clock read by [time(NULL)] and the
      files that can be opened) is a [world]. *)

From Stdlib Require Import ZArith List Ascii String Lia Bool QArith.
From stdpp Require Import base list strings gmap.
Import ListNotations.

Local Open Scope Z_scope.

(** ** Machine integers *)

Module MachineInt.

Definition INT_MAX : Z := 2147483647.
Definition INT_MIN : Z := -2147483648.
Definition UINT_MODULUS : Z := 4294967296.
Definition SIZE_MODULUS : Z := 18446744073709551616.
Definition PTRDIFF_MAX : Z := 9223372036854775807.

(** Value of an [int] after an operation whose mathematical result is [z]
    (two's complement, 32 bits). *)
Definition wrap_int (z : Z) : Z :=
  (z - INT_MIN) mod UINT_MODULUS + INT_MIN.

(** Conversion of an integer to [size_t]: the usual arithmetic conversion
    applied to [i] in [i < data.length()], and the conversion of the
    argument of [operator[]]. *)
Definition to_size_t (z : Z) : Z := z mod SIZE_MODULUS.

(** Conversion to [unsigned int] (the argument of [srand]). *)
Definition to_uint (z : Z) : Z := z mod UINT_MODULUS.

(** [(char) n]: the low eight bits of [n]. *)
Definition char_of_int (n : Z) : ascii := ascii_of_N (Z.to_N (n mod 256)).

End MachineInt.
Import MachineInt.

(** ** The C library's pseudorandom generator *)

(** [srand] installs a state from a seed; [rand] returns the next draw and
    the state that follows.  The program owns the state for the whole run,
    so it is threaded through the code explicitly. *)
Class RandGen := {
  rand_state : Type;
  srand : Z -> rand_state;
  rand : rand_state -> Z * rand_state
}.

(** The sample implementation of ISO C (7.22.2.2): a 32-bit linear
    congruential generator whose draws lie in 0..32767. *)
Definition iso_rand : RandGen := {|
  rand_state := Z;
  srand := fun seed => seed;
  rand := fun next =>
    let next' := (next * 1103515245 + 12345) mod UINT_MODULUS in
    ((next' / 65536) mod 32768, next')
|}.

(** A generator that replays a prescribed list of draws and then returns
    0 for ever: its state is the list of the draws still to come.  It is
    the tool to fix the draws of a run.  From the empty list every draw is
    0: every decision is 'replace' and every replacement is the NUL byte. *)
Definition replay_rand : RandGen := {|
  rand_state := list Z;
  srand := fun _ => [];
  rand := fun s => match s with
                   | [] => (0, [])
                   | r :: s' => (r, s')
                   end
|}.

(** ** The mutation loop (lines 31-40) *)

Definition newline : ascii := ascii_of_nat 10.

Section Mutator.

Context {G : RandGen}.

(** State of the loop: the string, the generator, and a ghost record of
    the positions the body has run at, oldest first.  The ghost field is
    not in the program; nothing the program computes depends on it. *)
Record loop_state := LoopState {
  ls_data : list ascii;
  ls_gen : rand_state;
  ls_visited : list Z
}.

(** Body of the loop at index [i] (lines 33-39).  The body only runs after
    the test [i < data.length()], so the assignment [data[i] = c] is
    always within the string. *)
Definition loop_body (i : Z) (st : loop_state) : loop_state :=
  let pos := to_size_t i in
  let '(r, g1) := rand (ls_gen st) in
  if Z.rem r 2 =? 0 then
    let '(r', g2) := rand g1 in
    let c := char_of_int (Z.rem r' 256) in
    {| ls_data := <[Z.to_nat pos := c]> (ls_data st);
       ls_gen := g2;
       ls_visited := ls_visited st ++ [pos] |}
  else
    {| ls_data := ls_data st;
       ls_gen := g1;
       ls_visited := ls_visited st ++ [pos] |}.

(** [for (int i = 0; i < data.length(); i++) body]: [i] is converted to
    [size_t] for the comparison, and [i++] is an [int] increment.  An
    increment past [INT_MAX] is undefined in C++; it is given its
    two's-complement result here.  Each unit of fuel pays for one test of
    the condition; [None] means the fuel ran out before the loop was
    left. *)
Fixpoint mutate_loop (fuel : nat) (i : Z) (st : loop_state) : option loop_state :=
  match fuel with
  | O => None
  | S fuel' =>
      if to_size_t i <? Z.of_nat (length (ls_data st))
      then mutate_loop fuel' (wrap_int (i + 1)) (loop_body i st)
      else Some st
  end.

Definition mutate (data : list ascii) (g : rand_state) : option loop_state :=
  mutate_loop (S (length data)) 0
    {| ls_data := data; ls_gen := g; ls_visited := [] |}.

(** A [std::string] never holds more than [PTRDIFF_MAX] characters. *)
Definition string_size_ok (data : list ascii) : Prop :=
  Z.of_nat (length data) <= PTRDIFF_MAX.

(** ** The program (lines 8-46) *)

(** What one run can observe of its environment: the value [time(NULL)]
    returns (whole seconds), and for each path whether [ifstream] opens it
    and, if so, the bytes that are read from it. *)
Record world := World {
  w_time : Z;
  w_open : string -> option (list ascii)
}.

(** What one run leaves behind. *)
Record outcome := Outcome {
  exit_status : Z;
  out_stdout : list ascii;
  out_stderr : string
}.

Definition endl : string := String newline EmptyString.

Definition usage_message (prog : string) : string :=
  "Usage: " +:+ prog +:+ " <input_file>" +:+ endl.

Definition open_error_message (path : string) : string :=
  "Error: Unable to open input file " +:+ path +:+ endl.

(** [main]: an invocation is the program name [argv[0]] and the arguments
    that follow it, so [argc] is one more than the number of arguments
    (the system keeps that number within [int]). *)
Definition main (prog : string) (args : list string) (w : world) : option outcome :=
  let argv := prog :: args in
  let argc := Z.of_nat (length argv) in
  if negb (argc =? 2) then
    Some {| exit_status := 1; out_stdout := []; out_stderr := usage_message (nth 0 argv EmptyString) |}
  else
    let g := srand (to_uint (w_time w)) in
    let path := nth 1 argv EmptyString in
    match w_open w path with
    | None =>
        Some {| exit_status := 1; out_stdout := []; out_stderr := open_error_message path |}
    | Some data =>
        match mutate data g with
        | None => None
        | Some st =>
            Some {| exit_status := 0;
                    out_stdout := ls_data st ++ [newline];
                    out_stderr := EmptyString |}
        end
    end.

(** ** The mutation as the specification words it

    Positions are taken from left to right.  At each one a decision is
    drawn; an odd draw keeps the byte, an even draw replaces it by the
    next draw modulo 256. *)
Fixpoint mutate_spec (data : list ascii) (g : rand_state) : list ascii * rand_state :=
  match data with
  | [] => ([], g)
  | b :: rest =>
      let '(decision, g1) := rand g in
      if Z.odd decision then
        let '(rest', g') := mutate_spec rest g1 in (b :: rest', g')
      else
        let '(value, g2) := rand g1 in
        let '(rest', g') := mutate_spec rest g2 in
        (ascii_of_N (Z.to_N (value mod 256)) :: rest', g')
  end.

End Mutator.

(** ** One position under prescribed draws *)

(** The byte a position holding [b] holds once the body (lines 33-39) has
    run there, when [rand] returns [decision] and then [value]. *)
Definition byte_after (b : ascii) (decision value : Z) : option ascii :=
  head (ls_data (@loop_body replay_rand 0
                  (@LoopState replay_rand [b] [decision; value] []))).

Definition byte_changed (b : ascii) (decision value : Z) : bool :=
  match byte_after b decision value with
  | Some b' => negb (Ascii.eqb b' b)
  | None => false
  end.

(** The values [0..m-1]: what [rand] can return when [RAND_MAX] is [m-1]. *)
Definition draws_below (m : nat) : list Z := map Z.of_nat (seq 0 m).

(** How many of the draws below [m] satisfy [P]. *)
Definition count_draws (P : Z -> bool) (m : nat) : nat :=
  length (List.filter P (draws_below m)).

(** The outcomes of [rand() % 2] and of [rand() % 256]: under a uniform
    generator the 512 pairs are equally likely. *)
Definition residue_pairs : list (Z * Z) :=
  list_prod (draws_below 2) (draws_below 256).

Definition changed_count (b : ascii) : nat :=
  length (List.filter (fun dv => byte_changed b (fst dv) (snd dv)) residue_pairs).

(** Probability that a position holding [b] holds another byte afterwards. *)
Definition change_probability (b : ascii) : Q :=
  Qmake (Z.of_nat (changed_count b)) (Pos.of_nat (length residue_pairs)).

(** The same count and probability over the draws themselves, for a
    generator whose two draws are uniform on [0..m-1] and independent. *)
Definition changed_draws (m : nat) (b : ascii) : nat :=
  length (List.filter (fun dv => byte_changed b (fst dv) (snd dv))
            (list_prod (draws_below m) (draws_below m))).

Definition draw_change_probability (m : nat) (b : ascii) : Q :=
  Qmake (Z.of_nat (changed_draws m b)) (Pos.of_nat (m * m)).

(** ** A string longer than [INT_MAX] *)

(** The number of non-negative values of an [int], as a position count. *)
Definition INT_VALUES : nat := Z.to_nat (INT_MAX + 1).

(** A file of [INT_MAX + 2] bytes, all of them the letter a. *)
Definition large_input : list ascii := replicate (S INT_VALUES) "a"%char.

(** ** The generator stream seen from outside *)

(** The state of the generator after [k] further draws. *)
Definition advance {G : RandGen} (k : nat) (g : rand_state) : rand_state :=
  Nat.iter k (fun s => snd (rand s)) g.

(** Whether the next [n] draws are all odd. *)
Fixpoint all_odd {G : RandGen} (n : nat) (g : rand_state) : bool :=
  match n with
  | O => true
  | S n' => Z.odd (fst (rand g)) && all_odd n' (snd (rand g))
  end.

(** The draws that make the loop write [target]: for each byte an even
    decision followed by the value of the byte. *)
Definition script_for (target : list ascii) : list Z :=
  flat_map (fun c => [0; Z.of_N (N_of_ascii c)]) target.

(** ** A concrete environment, used to exercise the statements below *)

Definition sample_bytes : list ascii := list_ascii_of_string "int main(){}".

Definition sample_world : world := {|
  w_time := 1700000000;
  w_open := fun path =>
    if String.eqb path "seed.c" then Some sample_bytes
    else if String.eqb path "empty" then Some []
    else None
|}.

(** The outcome of a first run over "seed.c" in that environment, with the
    generator of ISO C, and the environment of a later run that finds this
    output in the file "mutated.c". *)
Definition sample_first_outcome : outcome :=
  Eval vm_compute in
    match @main iso_rand "fuzz" ["seed.c"%string] sample_world with
    | Some out => out
    | None => Outcome 1 [] EmptyString
    end.

Definition sample_later_world : world := {|
  w_time := 1700000060;
  w_open := fun path =>
    if String.eqb path "mutated.c" then Some (out_stdout sample_first_outcome)
    else None
|}.

(** * The seed programs

    The seed files are programs too.  Their functions that work on
    integers, lists and maps are embedded here: those of the C seed
    (c_fuzzing_seed.c) and of the Go seed. *)

(** ** Counting loops *)

(** [for (i = first; cond(i); i = next(i)) s = body(i, s)].  Each unit of
    fuel pays for one test of the condition; [None] means the fuel ran out
    before the loop was left. *)
Fixpoint for_loop {St : Type} (fuel : nat) (cond : Z -> bool) (next : Z -> Z)
    (body : Z -> St -> St) (i : Z) (s : St) : option St :=
  match fuel with
  | O => None
  | S fuel' =>
      if cond i then for_loop fuel' cond next body (next i) (body i s)
      else Some s
  end.

(** ** The C seed *)

Module CSeed.

(** [kind_t] is an enumeration; an object of that type can hold any value
    of its integer type, which is why the switches have a default arm. *)
Definition KIND_NONE : Z := 0.
Definition KIND_ALPHA : Z := 1.
Definition KIND_BETA : Z := 2.
Definition KIND_GAMMA : Z := 3.

Definition op_add (a b : Z) : Z := wrap_int (a + b).
Definition op_sub (a b : Z) : Z := wrap_int (a - b).
Definition op_mul (a b : Z) : Z := wrap_int (a * b).

(** The result is a function pointer; [None] is [NULL]. *)
Definition choose_op (k : Z) : option (Z -> Z -> Z) :=
  if k =? KIND_ALPHA then Some op_add
  else if k =? KIND_BETA then Some op_sub
  else if k =? KIND_GAMMA then Some op_mul
  else None.

Definition dispatch_operation (kind a b : Z) : Z :=
  match choose_op kind with
  | None => 0
  | Some op => op a b
  end.

Definition next_kind (k : Z) : Z :=
  if k =? KIND_NONE then KIND_ALPHA
  else if k =? KIND_ALPHA then KIND_BETA
  else if k =? KIND_BETA then KIND_GAMMA
  else if k =? KIND_GAMMA then KIND_NONE
  else KIND_NONE.

(** [sum_ints(count, ...)].  The state of the loop is the running sum and
    the variable arguments [va_arg] has not consumed yet; it is [None] once
    [va_arg] has been called with no argument left, which is undefined.
    The result is [None] when the fuel runs out, [Some None] when the
    behaviour is undefined, [Some (Some sum)] otherwise. *)
Definition sum_ints_body (i : Z) (st : option (Z * list Z)) : option (Z * list Z) :=
  match st with
  | Some (sum, x :: ap) => Some (wrap_int (sum + x), ap)
  | _ => None
  end.

Definition sum_ints (count : Z) (args : list Z) : option (option Z) :=
  match for_loop (S (Z.to_nat count)) (fun i => i <? count)
                 (fun i => wrap_int (i + 1)) sum_ints_body 0 (Some (0, args)) with
  | None => None
  | Some st => Some (option_map fst st)
  end.

(** [vla_example(n)], for a [size_t] value [n].  The array [vla] has
    [(int)n] elements whose initial contents are indeterminate: they are
    taken from [junk]. *)
Definition vla_example (junk : list Z) (n : Z) : option Z :=
  if (n =? 0) || (n >? 64) then Some (-1)
  else
    let fuel := S (Z.to_nat n) in
    let next := fun i => to_size_t (i + 1) in
    let vla0 := resize (Z.to_nat (wrap_int n)) 0 junk in
    match for_loop fuel (fun i => i <? n) next
                   (fun i vla => <[Z.to_nat i := wrap_int i]> vla) 0 vla0 with
    | None => None
    | Some vla =>
        for_loop fuel (fun i => i <? n) next
                 (fun i acc => wrap_int (acc + default 0 (vla !! Z.to_nat i))) 0 0
    end.

End CSeed.

(** ** The Go seed *)

Module GoSeed.

(** [int] is 64 bits wide; Go defines signed overflow as wrap-around. *)
Definition MaxInt64 : Z := 9223372036854775807.
Definition wrap_int64 (z : Z) : Z :=
  (z + 9223372036854775808) mod 18446744073709551616 - 9223372036854775808.

(** [Clamp] at an integer type. *)
Definition Clamp (v lo hi : Z) : Z :=
  if v <? lo then lo
  else if v >? hi then hi
  else v.

Definition MapReduce {T R : Type} (xs : list T) (mapFn : T -> R)
    (reduceFn : R -> R -> R) (zero : R) : R :=
  fold_left (fun acc v => let m := mapFn v in reduceFn acc m) xs zero.

(** [closurePlay]: the closures [add] and [mult] update the captured
    variables [sum] and [mul], which are the state of the loop. *)
Definition closurePlay_loop (fuel : nat) (n : Z) : option (Z * Z) :=
  for_loop fuel (fun i => i <=? n) (fun i => wrap_int64 (i + 1))
           (fun i st => (wrap_int64 (fst st + i), wrap_int64 (snd st * i)))
           1 (0, 1).

Definition closurePlay (n : Z) : option (Z * Z) :=
  closurePlay_loop (S (Z.to_nat n)) n.

(** [invertMap].  [entries] are the pairs of the map in the order in which
    [range] delivers them, which Go leaves unspecified.  Reading a missing
    key of [res] gives the nil slice. *)
Definition invertMap_step {K V : Type} `{Countable V}
    (res : gmap V (list K)) (kv : K * V) : gmap V (list K) :=
  <[snd kv := default [] (res !! snd kv) ++ [fst kv]]> res.

Definition invertMap {K V : Type} `{Countable V}
    (entries : list (K * V)) : gmap V (list K) :=
  fold_left invertMap_step entries (empty : gmap V (list K)).

End GoSeed.

(** * Properties *)

(** Linear arithmetic once the limits of the machine types are numbers. *)
Ltac int_lia :=
  unfold INT_MAX, INT_MIN, UINT_MODULUS, SIZE_MODULUS, PTRDIFF_MAX in *; lia.

(** ** Machine integers *)

Lemma wrap_int_small z : INT_MIN <= z <= INT_MAX -> wrap_int z = z.
Proof.
  unfold wrap_int, INT_MIN, INT_MAX, UINT_MODULUS. intros Hz.
  rewrite Z.mod_small; lia.
Qed.

Lemma wrap_int_overflow : wrap_int (INT_MAX + 1) = INT_MIN.
Proof. reflexivity. Qed.

Lemma to_size_t_small z : 0 <= z < SIZE_MODULUS -> to_size_t z = z.
Proof. intros Hz. unfold to_size_t. apply Z.mod_small; lia. Qed.

Lemma to_size_t_INT_MIN : to_size_t INT_MIN = SIZE_MODULUS - 2147483648.
Proof. reflexivity. Qed.

(** [n % 256] followed by the cast to [char] keeps the residue of [n]
    modulo 256, whatever the sign of [n]. *)
Lemma char_of_int_rem n : char_of_int (Z.rem n 256) = char_of_int n.
Proof.
  unfold char_of_int. do 2 f_equal.
  rewrite (Z.rem_eq n 256) by lia.
  replace (n - 256 * Z.quot n 256) with (n + (- Z.quot n 256) * 256) by lia.
  apply Z.mod_add. lia.
Qed.

Lemma rem2_even n : (Z.rem n 2 =? 0) = Z.even n.
Proof.
  destruct (Z.even n) eqn:He.
  - apply Z.eqb_eq. apply Z.even_spec in He. destruct He as [k ->].
    rewrite Z.mul_comm. apply Z.rem_mul. lia.
  - apply Z.eqb_neq. intros Hr.
    assert (Hn : n = 2 * Z.quot n 2).
    { pose proof (Z.quot_rem' n 2) as Hq.
      rewrite Hr, Z.add_0_r in Hq. exact Hq. }
    assert (Z.even n = true) by (apply Z.even_spec; exists (Z.quot n 2); exact Hn).
    congruence.
Qed.

(** The loop is left when the index has run through the whole string, or
    when the [int] index has wrapped round: as a [size_t] it is then
    larger than any string length. *)
Lemma loop_exit_test (n len : Z) :
  0 <= n <= INT_MAX + 1 ->
  n <= len <= PTRDIFF_MAX ->
  n = len \/ n = INT_MAX + 1 ->
  (to_size_t (wrap_int n) <? len) = false.
Proof.
  intros Hn Hlen Hcase. apply Z.ltb_ge.
  destruct (Z.eq_dec n (INT_MAX + 1)) as [-> | Hne].
  - rewrite wrap_int_overflow, to_size_t_INT_MIN.
    unfold PTRDIFF_MAX, SIZE_MODULUS in *. lia.
  - assert (n = len) as <- by lia.
    rewrite wrap_int_small by (unfold INT_MIN, INT_MAX in *; lia).
    rewrite to_size_t_small by (unfold INT_MAX, SIZE_MODULUS in *; lia).
    lia.
Qed.

(** ** The loop on small strings *)

(** Draws 1, 2, 65, 3 on "abc": keep a; replace b by the byte 65, the
    letter A; keep c.  Four draws are used and the positions are visited
    in order. *)
Example mutate_abc :
  @mutate replay_rand (list_ascii_of_string "abc") [1; 2; 65; 3; 7] =
    Some (@LoopState replay_rand (list_ascii_of_string "aAc") [7] [0; 1; 2]).
Proof. reflexivity. Qed.

(** A replacement value is reduced modulo 256: 321 = 256 + 65. *)
Example mutate_value_reduced :
  @mutate replay_rand (list_ascii_of_string "x") [0; 321] =
    Some (@LoopState replay_rand (list_ascii_of_string "A") [] [0]).
Proof. reflexivity. Qed.

(** A whole run with the generator of ISO C. *)
Example main_sample_run :
  @main iso_rand "fuzz" ["seed.c"%string] sample_world = Some sample_first_outcome /\
  exit_status sample_first_outcome = 0 /\
  length (out_stdout sample_first_outcome) = 13%nat /\
  out_stdout sample_first_outcome <> sample_bytes ++ [newline].
Proof. repeat split; vm_compute; congruence. Qed.

(** ** The loop against the specification's wording *)

Section MutatorFacts.

Context {G : RandGen}.

Lemma mutate_spec_length (data : list ascii) :
  forall g, length (mutate_spec data g).1 = length data.
Proof.
  induction data as [| b rest IH]; intros g; simpl; [reflexivity |].
  destruct (rand g) as [d g1]. destruct (Z.odd d).
  - specialize (IH g1). destruct (mutate_spec rest g1). simpl in *. lia.
  - destruct (rand g1) as [v g2].
    specialize (IH g2). destruct (mutate_spec rest g2). simpl in *. lia.
Qed.

(** One run of the body at a position an [int] can hold, on a string split
    around that position. *)
Lemma loop_body_at (pre : list ascii) (b : ascii) (post : list ascii) g vis :
  Z.of_nat (length pre) <= INT_MAX ->
  loop_body (Z.of_nat (length pre)) (LoopState (pre ++ b :: post) g vis) =
    if Z.odd (rand g).1
    then LoopState (pre ++ b :: post) (rand g).2 (vis ++ [Z.of_nat (length pre)])
    else LoopState (pre ++ char_of_int (rand (rand g).2).1 :: post)
                   (rand (rand g).2).2 (vis ++ [Z.of_nat (length pre)]).
Proof.
  intros Hpre. unfold loop_body. simpl.
  rewrite to_size_t_small by (unfold INT_MAX, SIZE_MODULUS in *; lia).
  destruct (rand g) as [r g1]. simpl.
  rewrite rem2_even, <- Z.negb_odd.
  destruct (Z.odd r); simpl; [reflexivity |].
  destruct (rand g1) as [r' g2]. simpl.
  rewrite char_of_int_rem, Nat2Z.id.
  replace (length pre) with (length pre + 0)%nat at 1 by lia.
  rewrite insert_app_r. reflexivity.
Qed.

(** The invariant of the loop.  The string is [pre ++ todo ++ rest]: [pre]
    has been processed, [todo] is what the index can still reach before it
    overflows, and [rest] is either empty or lies at positions above
    [INT_MAX].  The loop then treats [todo] as [mutate_spec] does, leaves
    [rest] alone, and stops. *)
Lemma mutate_loop_run (todo : list ascii) :
  forall (fuel : nat) (pre rest : list ascii) g vis,
    Z.of_nat (length pre + length todo) <= INT_MAX + 1 ->
    rest = [] \/ Z.of_nat (length pre + length todo) = INT_MAX + 1 ->
    string_size_ok (pre ++ todo ++ rest) ->
    (length todo < fuel)%nat ->
    mutate_loop fuel (wrap_int (Z.of_nat (length pre)))
                (LoopState (pre ++ todo ++ rest) g vis) =
      Some (LoopState (pre ++ (mutate_spec todo g).1 ++ rest)
                      (mutate_spec todo g).2
                      (vis ++ map Z.of_nat (seq (length pre) (length todo)))).
Proof.
  induction todo as [| b todo IH]; intros fuel pre rest g vis Hmax Hrest Hsize Hfuel.
  - destruct fuel as [| fuel]; [simpl in Hfuel; int_lia |].
    simpl. rewrite app_nil_r.
    unfold string_size_ok in Hsize. simpl in Hsize, Hmax, Hrest.
    rewrite loop_exit_test; [reflexivity | int_lia | |].
    + rewrite length_app in *. int_lia.
    + destruct Hrest as [-> | Hrest]; [left | right; int_lia].
      rewrite app_nil_r. int_lia.
  - destruct fuel as [| fuel]; [simpl in Hfuel; int_lia |].
    cbn [length] in Hmax, Hfuel, Hrest.
    assert (Hpre : Z.of_nat (length pre) <= INT_MAX) by int_lia.
    cbn [mutate_loop ls_data].
    rewrite wrap_int_small by (unfold INT_MIN, INT_MAX in *; lia).
    rewrite to_size_t_small by (unfold INT_MAX, SIZE_MODULUS in *; lia).
    assert (Hlt : (Z.of_nat (length pre) <? Z.of_nat (length (pre ++ (b :: todo) ++ rest))) = true).
    { apply Z.ltb_lt. rewrite length_app. simpl. int_lia. }
    rewrite Hlt. clear Hlt.
    change ((b :: todo) ++ rest) with (b :: todo ++ rest).
    rewrite loop_body_at by exact Hpre.
    replace (Z.of_nat (length pre) + 1) with (Z.of_nat (length (pre ++ [b]))) 
      by (rewrite length_app; simpl; lia).
    cbn [mutate_spec].
    destruct (rand g) as [d g1]. cbn [fst snd].
    destruct (Z.odd d).
    + replace (pre ++ b :: todo ++ rest) with ((pre ++ [b]) ++ todo ++ rest)
        by (rewrite <- app_assoc; reflexivity).
      rewrite IH.
      * destruct (mutate_spec todo g1) as [out g']. cbn [fst snd].
        rewrite <- !app_assoc. simpl.
        rewrite length_app. simpl.
        replace (length pre + 1)%nat with (S (length pre)) by int_lia.
        reflexivity.
      * rewrite length_app. simpl. int_lia.
      * rewrite length_app. simpl. destruct Hrest; [left | right]; auto; int_lia.
      * unfold string_size_ok in *. rewrite <- app_assoc. exact Hsize.
      * int_lia.
    + destruct (rand g1) as [v g2]. cbn [fst snd].
      replace (length (pre ++ [b])) with (length (pre ++ [char_of_int v]))
        by (rewrite !length_app; reflexivity).
      replace (pre ++ char_of_int v :: todo ++ rest)
        with ((pre ++ [char_of_int v]) ++ todo ++ rest)
        by (rewrite <- app_assoc; reflexivity).
      rewrite IH.
      * destruct (mutate_spec todo g2) as [out g']. cbn [fst snd].
        rewrite <- !app_assoc. simpl.
        rewrite length_app. simpl.
        replace (length pre + 1)%nat with (S (length pre)) by int_lia.
        reflexivity.
      * rewrite length_app. simpl. int_lia.
      * rewrite length_app. simpl. destruct Hrest; [left | right]; auto; int_lia.
      * unfold string_size_ok in *. rewrite <- app_assoc.
        rewrite !length_app in *. simpl in *. exact Hsize.
      * int_lia.
Qed.

(** The whole loop.  [n] is the number of values of a non-negative [int]:
    the first [n] positions are treated as the specification says, in
    order; the positions from [n] on, if any, are never reached. *)
Lemma mutate_general (n : nat) (data : list ascii) g :
  Z.of_nat n = INT_MAX + 1 ->
  string_size_ok data ->
  mutate data g =
    Some (LoopState ((mutate_spec (take n data) g).1 ++ drop n data)
                    (mutate_spec (take n data) g).2
                    (map Z.of_nat (seq 0 (length (take n data))))).
Proof.
  intros Hn Hsize. unfold mutate.
  pose proof (mutate_loop_run (take n data) (S (length data)) [] (drop n data) g []) as Hrun.
  cbn [app length Nat.add] in Hrun.
  rewrite take_drop in Hrun.
  change (wrap_int (Z.of_nat 0)) with 0 in Hrun.
  apply Hrun; clear Hrun.
  - rewrite length_take. lia.
  - destruct (Nat.le_gt_cases (length data) n) as [Hle | Hgt].
    + left. apply drop_ge. exact Hle.
    + right. rewrite length_take. lia.
  - exact Hsize.
  - rewrite length_take. lia.
Qed.

(** Strings whose length an [int] can hold are mutated exactly as the
    specification describes. *)
Lemma mutate_refines_spec (data : list ascii) g :
  Z.of_nat (length data) <= INT_MAX ->
  mutate data g =
    Some (LoopState (mutate_spec data g).1 (mutate_spec data g).2
                    (map Z.of_nat (seq 0 (length data)))).
Proof.
  intros Hlen.
  assert (Hn : Z.of_nat (Z.to_nat (INT_MAX + 1)) = INT_MAX + 1)
    by (apply Z2Nat.id; int_lia).
  revert Hn. generalize (Z.to_nat (INT_MAX + 1)). intros n Hn.
  rewrite (mutate_general n) by (unfold string_size_ok; int_lia).
  rewrite take_ge, drop_ge by lia.
  rewrite app_nil_r. reflexivity.
Qed.

(** The loop always ends, and the string keeps its length. *)
Lemma mutate_total (data : list ascii) g :
  string_size_ok data ->
  exists st, mutate data g = Some st /\ length (ls_data st) = length data.
Proof.
  intros Hsize.
  assert (Hn : Z.of_nat (Z.to_nat (INT_MAX + 1)) = INT_MAX + 1)
    by (apply Z2Nat.id; int_lia).
  revert Hn. generalize (Z.to_nat (INT_MAX + 1)). intros n Hn.
  eexists. split; [apply (mutate_general n); assumption |].
  cbn [ls_data]. rewrite length_app, mutate_spec_length.
  rewrite <- length_app, take_drop. reflexivity.
Qed.

End MutatorFacts.

(** ** The program *)

Section MainFacts.

Context {G : RandGen}.

Lemma main_one_argument (prog path : string) (w : world) :
  main prog [path] w =
    match w_open w path with
    | None => Some (Outcome 1 [] (open_error_message path))
    | Some data =>
        match mutate data (srand (to_uint (w_time w))) with
        | None => None
        | Some st => Some (Outcome 0 (ls_data st ++ [newline]) EmptyString)
        end
    end.
Proof. reflexivity. Qed.

(** With one argument, a run ends in one of two ways: the open error
    with status 1, or status 0 with the mutated bytes on standard output. *)
Lemma main_one_argument_outcomes (prog path : string) (w : world) :
  (forall data, w_open w path = Some data -> string_size_ok data) ->
  exists out, main prog [path] w = Some out /\
    ((exit_status out = 1 /\ out_stdout out = [] /\
      out_stderr out = open_error_message path) \/
     (exit_status out = 0 /\ out_stderr out = EmptyString)).
Proof.
  intros Hsize. rewrite main_one_argument.
  destruct (w_open w path) as [data |] eqn:Hopen.
  - destruct (mutate_total data (srand (to_uint (w_time w))) (Hsize data eq_refl))
      as (st & -> & _).
    eexists. split; [reflexivity |]. right. split; reflexivity.
  - eexists. split; [reflexivity |]. left. repeat split.
Qed.

(** C2: a mutation run returns a string of exactly the length of its
    input: bytes are replaced where they stand, none is inserted or
    deleted. *)
Theorem mutation_preserves_length (data : list ascii) g :
  string_size_ok data ->
  exists st, mutate data g = Some st /\ length (ls_data st) = length data.
Proof. apply mutate_total. Qed.

(** C3: when the input file opens and holds L bytes, the run exits with
    status 0 and its standard output is the L mutated bytes followed by
    one line terminator, L+1 bytes in all. *)
Theorem main_success_output (prog path : string) (w : world) (data : list ascii) :
  w_open w path = Some data ->
  string_size_ok data ->
  exists st,
    mutate data (srand (to_uint (w_time w))) = Some st /\
    main prog [path] w = Some (Outcome 0 (ls_data st ++ [newline]) EmptyString) /\
    length (ls_data st) = length data /\
    length (ls_data st ++ [newline]) = S (length data).
Proof.
  intros Hopen Hsize.
  destruct (mutate_total data (srand (to_uint (w_time w))) Hsize) as (st & Hst & Hlen).
  exists st. rewrite main_one_argument, Hopen, Hst.
  repeat split; [exact Hlen |].
  rewrite length_app, Hlen. simpl. lia.
Qed.

(** C4: with any number of arguments other than one, the run prints the
    usage line on the error stream, exits with status 1 and writes nothing
    to standard output. *)
Theorem main_usage_error (prog : string) (args : list string) (w : world) :
  length args <> 1%nat ->
  main prog args w =
    Some (Outcome 1 [] ("Usage: " +:+ prog +:+ " <input_file>" +:+ endl)).
Proof.
  intros Hargs. unfold main. cbn [length nth].
  destruct (Z.eqb_spec (Z.of_nat (S (length args))) 2) as [Heq | Hne]; [lia |].
  reflexivity.
Qed.

(** C5: when the path cannot be opened, the run prints the error line
    naming the path on the error stream, exits with status 1 and writes
    nothing to standard output. *)
Theorem main_open_error (prog path : string) (w : world) :
  w_open w path = None ->
  main prog [path] w =
    Some (Outcome 1 [] ("Error: Unable to open input file " +:+ path +:+ endl)).
Proof. intros Hopen. rewrite main_one_argument, Hopen. reflexivity. Qed.

(** C6: two runs that receive the same seed (as two runs within one
    second of the clock do) and read the same bytes leave the same
    outcome: the output is a function of the seed and of the input. *)
Theorem main_deterministic (prog path : string) (w1 w2 : world) :
  to_uint (w_time w1) = to_uint (w_time w2) ->
  w_open w1 path = w_open w2 path ->
  main prog [path] w1 = main prog [path] w2.
Proof.
  intros Hseed Hfile. rewrite !main_one_argument, Hseed, Hfile. reflexivity.
Qed.

(** C7: on an empty file the loop makes no decision (the generator is left
    in the state [srand] gave it and no position is visited), and the
    standard output is one line terminator, with exit status 0. *)
Theorem main_empty_input (prog path : string) (w : world) :
  w_open w path = Some [] ->
  mutate [] (srand (to_uint (w_time w))) =
    Some (LoopState [] (srand (to_uint (w_time w))) []) /\
  main prog [path] w = Some (Outcome 0 [newline] EmptyString).
Proof.
  intros Hopen. split; [reflexivity |].
  rewrite main_one_argument, Hopen. reflexivity.
Qed.

(** C9: a run over the output of an earlier run never gives that output
    back: the second output is one byte longer than the first, whatever
    the seeds.  No string is a fixed point of the mutator. *)
Theorem main_rerun_differs (prog1 path1 prog2 path2 : string) (w1 w2 : world)
    (data : list ascii) (out1 : outcome) :
  w_open w1 path1 = Some data ->
  main prog1 [path1] w1 = Some out1 ->
  Z.of_nat (length data) < PTRDIFF_MAX ->
  w_open w2 path2 = Some (out_stdout out1) ->
  exists out2,
    main prog2 [path2] w2 = Some out2 /\
    exit_status out2 = 0 /\
    length (out_stdout out2) = S (length (out_stdout out1)) /\
    out_stdout out2 <> out_stdout out1.
Proof.
  intros Hopen1 Hrun1 Hroom Hopen2.
  assert (Hsize1 : string_size_ok data) by (unfold string_size_ok; lia).
  destruct (mutate_total data (srand (to_uint (w_time w1))) Hsize1)
    as (st1 & Hst1 & Hlen1).
  rewrite main_one_argument, Hopen1, Hst1 in Hrun1.
  injection Hrun1 as <-. cbn [out_stdout] in *.
  assert (Hsize2 : string_size_ok (ls_data st1 ++ [newline])).
  { unfold string_size_ok. rewrite length_app, Hlen1. simpl. lia. }
  destruct (mutate_total _ (srand (to_uint (w_time w2))) Hsize2)
    as (st2 & Hst2 & Hlen2).
  rewrite main_one_argument, Hopen2, Hst2.
  eexists. split; [reflexivity |]. cbn [exit_status out_stdout].
  assert (Hlen : length (ls_data st2 ++ [newline]) = S (length (ls_data st1 ++ [newline]))).
  { rewrite (length_app (ls_data st2)), Hlen2. simpl. lia. }
  repeat split; [exact Hlen |].
  intros Heq. rewrite Heq in Hlen. lia.
Qed.

End MainFacts.

(** ** One position: which draws change the byte *)

Lemma byte_after_eq (b : ascii) (decision value : Z) :
  byte_after b decision value =
    Some (if Z.even decision then char_of_int value else b).
Proof.
  unfold byte_after, loop_body. cbn [ls_gen ls_data rand replay_rand].
  rewrite rem2_even, char_of_int_rem.
  destruct (Z.even decision); reflexivity.
Qed.

(** The same holds at any position an [int] can index, in any string and
    for any generator: the byte found there after the body has run is
    [byte_after] of the two draws that follow in the stream. *)
Lemma loop_body_byte (G : RandGen) (pre : list ascii) (b : ascii)
    (post : list ascii) (g : rand_state) (vis : list Z) :
  Z.of_nat (length pre) <= INT_MAX ->
  ls_data (loop_body (Z.of_nat (length pre)) (LoopState (pre ++ b :: post) g vis))
    !! length pre =
  byte_after b (rand g).1 (rand (rand g).2).1.
Proof.
  intros Hpre. rewrite loop_body_at by exact Hpre.
  rewrite byte_after_eq, <- Z.negb_odd.
  destruct (Z.odd (rand g).1); cbn [negb ls_data];
    rewrite list_lookup_middle; reflexivity.
Qed.

Lemma byte_after_residues (b : ascii) (decision value : Z) :
  byte_after b decision value = byte_after b (decision mod 2) (value mod 256).
Proof.
  rewrite !byte_after_eq. f_equal.
  assert (He : Z.even (decision mod 2) = Z.even decision).
  { rewrite (Z.div_mod decision 2) at 2 by lia.
    rewrite Z.add_comm, Z.even_add_mul_2. reflexivity. }
  rewrite He. destruct (Z.even decision); [| reflexivity].
  unfold char_of_int. rewrite Z.mod_mod by lia. reflexivity.
Qed.

(** *** Counting the draws that change the byte *)

Lemma byte_changed_eq (b : ascii) (decision value : Z) :
  byte_changed b decision value =
    Z.even decision && negb (Ascii.eqb (char_of_int value) b).
Proof.
  unfold byte_changed. rewrite byte_after_eq.
  destruct (Z.even decision); cbn [andb]; [reflexivity |].
  rewrite Ascii.eqb_refl. reflexivity.
Qed.

Lemma filter_length_ext {A : Type} (f g : A -> bool) (l : list A) :
  (forall x, In x l -> f x = g x) ->
  length (List.filter f l) = length (List.filter g l).
Proof.
  induction l as [| a l IH]; intros Hfg; [reflexivity |].
  cbn [List.filter]. rewrite (Hfg a) by (left; reflexivity).
  destruct (g a); cbn [length]; rewrite IH; auto; intros x Hx; apply Hfg; right; exact Hx.
Qed.

Lemma filter_length_map {A B : Type} (f : A -> B) (P : B -> bool) (l : list A) :
  length (List.filter P (map f l)) = length (List.filter (fun x => P (f x)) l).
Proof.
  induction l as [| a l IH]; [reflexivity |].
  cbn [map List.filter]. destruct (P (f a)); cbn [length]; rewrite IH; reflexivity.
Qed.

Lemma filter_length_prod {A B : Type} (f : A -> bool) (g : B -> bool)
    (l1 : list A) (l2 : list B) :
  length (List.filter (fun p => f (fst p) && g (snd p)) (list_prod l1 l2)) =
  (length (List.filter f l1) * length (List.filter g l2))%nat.
Proof.
  induction l1 as [| a l1 IH]; [reflexivity |].
  cbn [list_prod]. rewrite List.filter_app, length_app, IH, filter_length_map.
  cbn [fst snd List.filter]. destruct (f a); cbn [andb length].
  - change (fun x : B => g x) with g. lia.
  - assert (Hnil : length (List.filter (fun _ : B => false) l2) = 0%nat).
    { clear. induction l2; [reflexivity | assumption]. }
    rewrite Hnil. lia.
Qed.

Lemma draws_shift (m k s : nat) :
  map Z.of_nat (seq (s + m) k) =
  map (fun r => r + Z.of_nat m) (map Z.of_nat (seq s k)).
Proof.
  revert s. induction k as [| k IH]; intros s; [reflexivity |].
  cbn [seq map]. f_equal; [lia |]. apply (IH (S s)).
Qed.

Lemma draws_below_add (m k : nat) :
  draws_below (m + k) =
  draws_below m ++ map (fun r => r + Z.of_nat m) (draws_below k).
Proof.
  unfold draws_below. rewrite seq_app, map_app, draws_shift. reflexivity.
Qed.

(** A predicate of period [p] holds of as many draws in each block of [p]
    consecutive values. *)
Lemma count_draws_periodic (P : Z -> bool) (p : nat) :
  (forall r, P (r + Z.of_nat p) = P r) ->
  forall k, count_draws P (k * p) = (k * count_draws P p)%nat.
Proof.
  intros Hper.
  assert (Hshift : forall k r, P (r + Z.of_nat (k * p)) = P r).
  { induction k as [| k IH]; intros r.
    - cbn [Nat.mul]. f_equal. lia.
    - replace (r + Z.of_nat (S k * p)) with ((r + Z.of_nat (k * p)) + Z.of_nat p) by lia.
      rewrite Hper. apply IH. }
  induction k as [| k IH]; [reflexivity |].
  unfold count_draws in *.
  replace (S k * p)%nat with (k * p + p)%nat by lia.
  rewrite draws_below_add, List.filter_app, length_app, IH, filter_length_map.
  rewrite (filter_length_ext (fun r => P (r + Z.of_nat (k * p))) P)
    by (intros r _; apply Hshift).
  lia.
Qed.

Lemma even_periodic (r : Z) : Z.even (r + Z.of_nat 2) = Z.even r.
Proof.
  change (Z.of_nat 2) with (2 * 1). rewrite Z.even_add_mul_2. reflexivity.
Qed.

Lemma char_of_int_periodic (r : Z) :
  char_of_int (r + Z.of_nat 256) = char_of_int r.
Proof.
  unfold char_of_int. do 2 f_equal.
  change (Z.of_nat 256) with (1 * 256). apply Z.mod_add. lia.
Qed.

Lemma count_other_bytes (b : ascii) :
  count_draws (fun v => negb (Ascii.eqb (char_of_int v) b)) 256 = 255%nat.
Proof.
  destruct b as [[] [] [] [] [] [] [] []]; vm_compute; reflexivity.
Qed.

(** With [RAND_MAX + 1 = 256 k], half of the decisions are even and 255 k
    of the values give a byte other than [b]. *)
Lemma changed_draws_eq (k : nat) (b : ascii) :
  changed_draws (k * 256) b = (k * 128 * (k * 255))%nat.
Proof.
  unfold changed_draws.
  rewrite (filter_length_ext _
             (fun p => Z.even (fst p) && negb (Ascii.eqb (char_of_int (snd p)) b)))
    by (intros [d v] _; apply byte_changed_eq).
  rewrite (filter_length_prod Z.even (fun v => negb (Ascii.eqb (char_of_int v) b))).
  fold (count_draws Z.even (k * 256)).
  fold (count_draws (fun v => negb (Ascii.eqb (char_of_int v) b)) (k * 256)).
  replace (k * 256)%nat with (k * 128 * 2)%nat at 1 by lia.
  rewrite (count_draws_periodic Z.even 2 even_periodic).
  rewrite (count_draws_periodic _ 256) by (intros r; rewrite char_of_int_periodic; reflexivity).
  rewrite count_other_bytes.
  change (count_draws Z.even 2) with 1%nat. lia.
Qed.

Lemma changed_count_all (b : ascii) : changed_count b = 255%nat.
Proof.
  destruct b as [[] [] [] [] [] [] [] []]; vm_compute; reflexivity.
Qed.

Lemma draw_change_probability_eq (k : nat) (b : ascii) :
  (draw_change_probability (S k * 256) b == 255 # 512)%Q.
Proof.
  unfold draw_change_probability, Qeq. cbn [Qnum Qden].
  rewrite changed_draws_eq.
  assert (Hden : Z.pos (Pos.of_nat (S k * 256 * (S k * 256))) =
                 Z.of_nat (S k * 256 * (S k * 256))).
  { rewrite <- positive_nat_Z, Nat2Pos.id by lia. reflexivity. }
  rewrite Hden. lia.
Qed.

(** C10: a position chosen for replacement may receive the byte it already
    holds, so it need not change.  Of the 512 equally likely outcomes of
    the two draws exactly 255 change the byte: the probability that a
    position differs after the body has run is 255/512, which is less than
    1/2.  The same probability results when the two draws are uniform on
    0..RAND_MAX, for RAND_MAX + 1 any multiple of 256. *)
Theorem change_probability_exact (b : ascii) :
  (exists value, 0 <= value < 256 /\ byte_after b 0 value = Some b) /\
  (forall decision value,
     byte_changed b decision value =
     byte_changed b (decision mod 2) (value mod 256)) /\
  length residue_pairs = 512%nat /\
  changed_count b = 255%nat /\
  (change_probability b == 255 # 512)%Q /\
  (change_probability b < 1 # 2)%Q /\
  (forall k, draw_change_probability (S k * 256) b == 255 # 512)%Q.
Proof.
  split; [| split; [| split; [| split; [| split; [| split]]]]].
  - exists (Z.of_N (N_of_ascii b)). split.
    + pose proof (N_ascii_bounded b). lia.
    + rewrite byte_after_eq. cbn. f_equal. unfold char_of_int.
      pose proof (N_ascii_bounded b).
      rewrite Z.mod_small by lia.
      rewrite N2Z.id. apply ascii_N_embedding.
  - intros decision value. unfold byte_changed.
    rewrite byte_after_residues. reflexivity.
  - reflexivity.
  - apply changed_count_all.
  - unfold change_probability. rewrite changed_count_all. reflexivity.
  - unfold change_probability. rewrite changed_count_all. reflexivity.
  - intros k. apply draw_change_probability_eq.
Qed.

(** ** Strings longer than [INT_MAX]

    Once the index has taken the value [INT_MAX], [i++] overflows.  With
    wrap-around the index becomes [INT_MIN], which compares as a huge
    [size_t], and the loop is left: positions above [INT_MAX] are never
    reached. *)

Lemma INT_VALUES_eq : Z.of_nat INT_VALUES = INT_MAX + 1.
Proof. unfold INT_VALUES. apply Z2Nat.id. int_lia. Qed.

Lemma replay_empty_spec (n : nat) (b : ascii) :
  @mutate_spec replay_rand (replicate n b) [] = (replicate n zero, []).
Proof.
  induction n as [| n IH]; [reflexivity |].
  cbn [replicate mutate_spec]. cbn [rand replay_rand].
  cbn [Z.odd]. rewrite IH. reflexivity.
Qed.

Lemma mutate_beyond_int (n : nat) (G : RandGen) (b : ascii) (g : rand_state) :
  Z.of_nat n = INT_MAX + 1 ->
  mutate (replicate (S n) b) g =
    Some (LoopState ((mutate_spec (replicate n b) g).1 ++ [b])
                    (mutate_spec (replicate n b) g).2
                    (map Z.of_nat (seq 0 n))).
Proof.
  intros Hn.
  rewrite (mutate_general n) by
    (try assumption; unfold string_size_ok; rewrite length_replicate; int_lia).
  rewrite take_replicate, drop_replicate, length_replicate.
  replace (n `min` S n)%nat with n by lia.
  replace (S n - n)%nat with 1%nat by lia.
  reflexivity.
Qed.

(** C1 at an input of [INT_MAX + 2] bytes, with the generator whose every
    decision is 'replace': the program replaces the bytes at positions
    0..[INT_MAX] and leaves the last byte as it was, without a draw for
    it, where the specification's mutation replaces it as well. *)
Theorem large_input_last_byte_kept :
  exists st,
    @mutate replay_rand large_input [] = Some st /\
    ls_data st = replicate INT_VALUES zero ++ ["a"%char] /\
    (@mutate_spec replay_rand large_input []).1 =
      replicate INT_VALUES zero ++ [zero] /\
    ls_data st <> (@mutate_spec replay_rand large_input []).1.
Proof.
  unfold large_input. pose proof INT_VALUES_eq as Hn. revert Hn.
  generalize INT_VALUES. intros n Hn.
  eexists. split; [apply (mutate_beyond_int n replay_rand); exact Hn |].
  cbn [ls_data]. rewrite !replay_empty_spec. cbn [fst].
  assert (Hsnoc : replicate (S n) zero = replicate n zero ++ [zero]).
  { clear Hn. induction n as [| n IH]; [reflexivity |].
    cbn [replicate app] in *. rewrite <- IH. reflexivity. }
  rewrite Hsnoc. repeat split.
  intros Heq. apply app_inv_head in Heq. discriminate Heq.
Qed.

(** C8 at an input of [INT_MAX + 2] bytes, for any generator: the loop
    ends after visiting the positions 0..[INT_MAX] only.  The last
    position, [INT_MAX + 1], is not visited, so fewer positions are
    visited than the string has bytes. *)
Theorem large_input_not_all_visited (G : RandGen) (g : rand_state) :
  exists st,
    mutate large_input g = Some st /\
    ls_visited st = map Z.of_nat (seq 0 INT_VALUES) /\
    ~ In (INT_MAX + 1) (ls_visited st) /\
    Z.of_nat (length (ls_visited st)) = INT_MAX + 1 /\
    Z.of_nat (length large_input) = INT_MAX + 2.
Proof.
  unfold large_input. pose proof INT_VALUES_eq as Hn. revert Hn.
  generalize INT_VALUES. intros n Hn.
  eexists. split; [apply (mutate_beyond_int n G); exact Hn |].
  cbn [ls_visited]. split; [reflexivity |]. split; [| split].
  - intros Hin. apply in_map_iff in Hin. destruct Hin as (k & Hk & Hin).
    apply in_seq in Hin. lia.
  - rewrite length_map, length_seq. exact Hn.
  - rewrite length_replicate. lia.
Qed.

(** ** The statements at a concrete run *)

Lemma mutation_preserves_length_witness :
  string_size_ok sample_bytes /\
  exists st, @mutate iso_rand sample_bytes 2024 = Some st /\
             length (ls_data st) = length sample_bytes.
Proof.
  assert (Hsize : string_size_ok sample_bytes)
    by (unfold string_size_ok; simpl; int_lia).
  split; [exact Hsize |].
  exact (@mutation_preserves_length iso_rand sample_bytes 2024 Hsize).
Defined.

Lemma main_success_output_witness :
  w_open sample_world "seed.c" = Some sample_bytes /\
  string_size_ok sample_bytes /\
  exists st,
    @mutate iso_rand sample_bytes (srand (to_uint (w_time sample_world))) = Some st /\
    @main iso_rand "fuzz" ["seed.c"%string] sample_world =
      Some (Outcome 0 (ls_data st ++ [newline]) EmptyString) /\
    length (ls_data st) = length sample_bytes /\
    length (ls_data st ++ [newline]) = S (length sample_bytes).
Proof.
  assert (Hsize : string_size_ok sample_bytes)
    by (unfold string_size_ok; simpl; int_lia).
  split; [reflexivity |]. split; [exact Hsize |].
  exact (@main_success_output iso_rand "fuzz" "seed.c" sample_world sample_bytes
           eq_refl Hsize).
Defined.

Lemma main_usage_error_witness :
  length ["a.c"; "b.c"]%string <> 1%nat /\
  @main iso_rand "fuzz" ["a.c"; "b.c"]%string sample_world =
    Some (Outcome 1 [] ("Usage: " +:+ "fuzz" +:+ " <input_file>" +:+ endl)).
Proof.
  assert (Hargs : length ["a.c"; "b.c"]%string <> 1%nat) by (simpl; lia).
  split; [exact Hargs |].
  exact (@main_usage_error iso_rand "fuzz" ["a.c"; "b.c"]%string sample_world Hargs).
Defined.

Lemma main_open_error_witness :
  w_open sample_world "missing.c" = None /\
  @main iso_rand "fuzz" ["missing.c"%string] sample_world =
    Some (Outcome 1 [] ("Error: Unable to open input file " +:+ "missing.c" +:+ endl)).
Proof.
  split; [reflexivity |].
  exact (@main_open_error iso_rand "fuzz" "missing.c" sample_world eq_refl).
Defined.

(** Two runs in the same second, in environments that differ elsewhere. *)
Lemma main_deterministic_witness :
  let w2 := {| w_time := w_time sample_world;
               w_open := fun path =>
                 if String.eqb path "seed.c" then Some sample_bytes else None |} in
  to_uint (w_time sample_world) = to_uint (w_time w2) /\
  w_open sample_world "seed.c" = w_open w2 "seed.c" /\
  @main iso_rand "fuzz" ["seed.c"%string] sample_world =
    @main iso_rand "fuzz" ["seed.c"%string] w2.
Proof.
  intros w2. split; [reflexivity |]. split; [reflexivity |].
  exact (@main_deterministic iso_rand "fuzz" "seed.c" sample_world w2 eq_refl eq_refl).
Defined.

Lemma main_empty_input_witness :
  w_open sample_world "empty" = Some [] /\
  @mutate iso_rand [] (srand (to_uint (w_time sample_world))) =
    Some (LoopState [] (srand (to_uint (w_time sample_world))) []) /\
  @main iso_rand "fuzz" ["empty"%string] sample_world =
    Some (Outcome 0 [newline] EmptyString).
Proof.
  split; [reflexivity |].
  exact (@main_empty_input iso_rand "fuzz" "empty" sample_world eq_refl).
Defined.

Lemma main_rerun_differs_witness :
  w_open sample_world "seed.c" = Some sample_bytes /\
  @main iso_rand "fuzz" ["seed.c"%string] sample_world = Some sample_first_outcome /\
  Z.of_nat (length sample_bytes) < PTRDIFF_MAX /\
  w_open sample_later_world "mutated.c" = Some (out_stdout sample_first_outcome) /\
  exists out2,
    @main iso_rand "fuzz" ["mutated.c"%string] sample_later_world = Some out2 /\
    exit_status out2 = 0 /\
    length (out_stdout out2) = S (length (out_stdout sample_first_outcome)) /\
    out_stdout out2 <> out_stdout sample_first_outcome.
Proof.
  assert (Hrun : @main iso_rand "fuzz" ["seed.c"%string] sample_world =
                 Some sample_first_outcome) by (vm_compute; reflexivity).
  assert (Hroom : Z.of_nat (length sample_bytes) < PTRDIFF_MAX) by (simpl; int_lia).
  split; [reflexivity |]. split; [exact Hrun |]. split; [exact Hroom |].
  split; [reflexivity |].
  exact (@main_rerun_differs iso_rand "fuzz" "seed.c" "fuzz" "mutated.c"
           sample_world sample_later_world sample_bytes sample_first_outcome
           eq_refl Hrun Hroom eq_refl).
Defined.

(** * Further properties of the mutator *)

Section MutatorMore.

Context {G : RandGen}.

Lemma advance_succ (k : nat) (g : rand_state) :
  advance (S k) g = advance k (rand g).2.
Proof.
  induction k as [| k IH]; [reflexivity |].
  change (advance (S (S k)) g) with (snd (rand (advance (S k) g))).
  rewrite IH. reflexivity.
Qed.

Lemma mutate_spec_app (a b : list ascii) :
  forall g,
    mutate_spec (a ++ b) g =
      ((mutate_spec a g).1 ++ (mutate_spec b (mutate_spec a g).2).1,
       (mutate_spec b (mutate_spec a g).2).2).
Proof.
  induction a as [| x a IH]; intros g.
  - cbn [app mutate_spec fst snd]. destruct (mutate_spec b g); reflexivity.
  - cbn [app mutate_spec]. destruct (rand g) as [d g1]. destruct (Z.odd d).
    + rewrite IH. destruct (mutate_spec a g1) as [oa ga]. cbn [fst snd].
      destruct (mutate_spec b ga); reflexivity.
    + destruct (rand g1) as [v g2]. rewrite IH.
      destruct (mutate_spec a g2) as [oa ga]. cbn [fst snd].
      destruct (mutate_spec b ga); reflexivity.
Qed.

Lemma mutate_spec_draws (data : list ascii) :
  forall g, exists k,
    (length data <= k <= 2 * length data)%nat /\
    (mutate_spec data g).2 = advance k g.
Proof.
  induction data as [| b rest IH]; intros g.
  - exists 0%nat. split; [simpl; lia | reflexivity].
  - cbn [mutate_spec]. destruct (rand g) as [d g1] eqn:Hd.
    destruct (Z.odd d).
    + destruct (IH g1) as (k & Hk & Heq). exists (S k).
      split; [simpl; lia |]. rewrite advance_succ, Hd. cbn [snd].
      destruct (mutate_spec rest g1). exact Heq.
    + destruct (rand g1) as [v g2] eqn:Hv.
      destruct (IH g2) as (k & Hk & Heq). exists (S (S k)).
      split; [simpl; lia |]. rewrite !advance_succ, Hd. cbn [snd].
      rewrite Hv. cbn [snd]. destruct (mutate_spec rest g2). exact Heq.
Qed.

Lemma mutate_spec_all_odd (data : list ascii) :
  forall g, all_odd (length data) g = true ->
    mutate_spec data g = (data, advance (length data) g).
Proof.
  induction data as [| b rest IH]; intros g Hodd; [reflexivity |].
  cbn [length all_odd] in Hodd. apply andb_true_iff in Hodd as [Hd Hrest].
  cbn [length]. rewrite advance_succ. cbn [mutate_spec].
  destruct (rand g) as [d g1]. cbn [fst snd] in *. rewrite Hd.
  rewrite (IH g1 Hrest). reflexivity.
Qed.

(** Which bytes change does not depend on what the bytes are. *)
Lemma mutate_spec_content (d1 : list ascii) :
  forall d2 g, length d1 = length d2 ->
    (mutate_spec d1 g).2 = (mutate_spec d2 g).2 /\
    forall k : nat,
      ((mutate_spec d1 g).1 !! k = d1 !! k /\ (mutate_spec d2 g).1 !! k = d2 !! k) \/
      (mutate_spec d1 g).1 !! k = (mutate_spec d2 g).1 !! k.
Proof.
  induction d1 as [| b1 r1 IH]; intros [| b2 r2] g Hlen; try discriminate Hlen.
  - split; [reflexivity |]. intros k. left. split; reflexivity.
  - injection Hlen as Hlen. cbn [mutate_spec].
    destruct (rand g) as [d g1]. destruct (Z.odd d).
    + destruct (IH r2 g1 Hlen) as [Hgen Hpos].
      destruct (mutate_spec r1 g1) as [o1 h1], (mutate_spec r2 g1) as [o2 h2].
      cbn [fst snd] in *. split; [exact Hgen |].
      intros [| k]; [left; split; reflexivity | apply Hpos].
    + destruct (rand g1) as [v g2].
      destruct (IH r2 g2 Hlen) as [Hgen Hpos].
      destruct (mutate_spec r1 g2) as [o1 h1], (mutate_spec r2 g2) as [o2 h2].
      cbn [fst snd] in *. split; [exact Hgen |].
      intros [| k]; [right; reflexivity | apply Hpos].
Qed.

(** X1: on a string of at most [INT_MAX] bytes the loop runs the body at
    the positions 0, 1, ..., L-1, in that order and once each, and the
    string and the generator it ends with are those of the left-to-right
    process: one decision draw per position, an odd draw keeps the byte, an
    even draw replaces it by the next draw modulo 256. *)
Theorem mutate_within_int_range (data : list ascii) (g : rand_state) :
  Z.of_nat (length data) <= INT_MAX ->
  mutate data g =
    Some (LoopState (mutate_spec data g).1 (mutate_spec data g).2
                    (map Z.of_nat (seq 0 (length data)))).
Proof. apply mutate_refines_spec. Qed.

(** X2: mutating a string made of two parts is mutating the first part and
    then the second with the generator the first part left behind.  In
    particular the bytes written for the first part do not depend on what
    follows it: the loop never looks ahead. *)
Theorem mutate_app (a b : list ascii) (g : rand_state) :
  Z.of_nat (length (a ++ b)) <= INT_MAX ->
  exists sa sb sab,
    mutate a g = Some sa /\
    mutate b (ls_gen sa) = Some sb /\
    mutate (a ++ b) g = Some sab /\
    ls_data sab = ls_data sa ++ ls_data sb /\
    ls_gen sab = ls_gen sb /\
    take (length a) (ls_data sab) = ls_data sa.
Proof.
  intros Hlen. rewrite length_app in Hlen.
  do 3 eexists.
  split; [apply mutate_refines_spec; lia |]. cbn [ls_gen].
  split; [apply mutate_refines_spec; lia |].
  split; [apply mutate_refines_spec; rewrite length_app; lia |].
  cbn [ls_data ls_gen]. rewrite mutate_spec_app. cbn [fst snd].
  repeat split.
  rewrite take_app_length'; [reflexivity |].
  symmetry. apply mutate_spec_length.
Qed.

(** X3: a run over L bytes (L at most [INT_MAX]) takes at least L and at
    most 2 L draws from the generator. *)
Theorem mutate_draw_count (data : list ascii) (g : rand_state) :
  Z.of_nat (length data) <= INT_MAX ->
  exists st k,
    mutate data g = Some st /\
    (length data <= k <= 2 * length data)%nat /\
    ls_gen st = advance k g.
Proof.
  intros Hlen. destruct (mutate_spec_draws data g) as (k & Hk & Heq).
  eexists. exists k. split; [apply mutate_refines_spec; exact Hlen |].
  split; [exact Hk | exact Heq].
Qed.

(** X4: when the next L draws are all odd, the string comes out as it went
    in, and exactly L draws are taken. *)
Theorem mutate_all_odd_identity (data : list ascii) (g : rand_state) :
  Z.of_nat (length data) <= INT_MAX ->
  all_odd (length data) g = true ->
  mutate data g =
    Some (LoopState data (advance (length data) g)
                    (map Z.of_nat (seq 0 (length data)))).
Proof.
  intros Hlen Hodd. rewrite mutate_refines_spec by exact Hlen.
  rewrite (mutate_spec_all_odd data g Hodd). reflexivity.
Qed.

(** X5: the decisions do not depend on the bytes.  Two strings of the same
    length, mutated from the same generator state, leave the generator in
    the same state, and at every position either both keep their byte or
    both receive the same new byte. *)
Theorem mutate_content_independent (d1 d2 : list ascii) (g : rand_state) :
  length d1 = length d2 ->
  Z.of_nat (length d1) <= INT_MAX ->
  exists s1 s2,
    mutate d1 g = Some s1 /\ mutate d2 g = Some s2 /\
    ls_gen s1 = ls_gen s2 /\
    forall k : nat,
      (ls_data s1 !! k = d1 !! k /\ ls_data s2 !! k = d2 !! k) \/
      ls_data s1 !! k = ls_data s2 !! k.
Proof.
  intros Hsame Hlen. do 2 eexists.
  split; [apply mutate_refines_spec; exact Hlen |].
  split; [apply mutate_refines_spec; lia |].
  cbn [ls_gen ls_data]. apply mutate_spec_content. exact Hsame.
Qed.

End MutatorMore.

(** ** What the mutator can produce *)

Lemma mutate_spec_script (data : list ascii) :
  forall (target : list ascii) (rest : list Z),
    length data = length target ->
    @mutate_spec replay_rand data (script_for target ++ rest) = (target, rest).
Proof.
  induction data as [| b data IH]; intros [| c target] rest Hlen;
    try discriminate Hlen; [reflexivity |].
  injection Hlen as Hlen. cbn [script_for flat_map app mutate_spec rand replay_rand].
  cbn [Z.odd]. fold (script_for target). rewrite (IH target rest Hlen).
  f_equal. f_equal.
  pose proof (N_ascii_bounded c).
  rewrite Z.mod_small by lia.
  rewrite N2Z.id. apply ascii_N_embedding.
Qed.

(** X6: every string of the length of the input can come out.  For a
    target of that length there are draws, an even decision and the byte's
    value for each position, under which the loop turns the input into
    the target and uses exactly those draws. *)
Theorem mutate_reaches_target (data target : list ascii) :
  length data = length target ->
  Z.of_nat (length data) <= INT_MAX ->
  exists st,
    @mutate replay_rand data (script_for target) = Some st /\
    ls_data st = target /\
    ls_gen st = [].
Proof.
  intros Hsame Hlen. eexists.
  split; [apply mutate_refines_spec; exact Hlen |].
  cbn [ls_data ls_gen].
  rewrite <- (app_nil_r (script_for target)).
  rewrite (mutate_spec_script data target [] Hsame). split; reflexivity.
Qed.

(** ** The outcome of a run *)

Section MainMore.

Context {G : RandGen}.



End MainMore.


(** * Properties of the seed programs *)

(** ** Counting loops *)

(** A loop whose index takes the values [idx start], [idx (start + 1)],
    ... and fails its test at [idx (start + k)] runs its body [k] times,
    given more than [k] units of fuel. *)
Lemma for_loop_run {St : Type} (idx : nat -> Z) (cond : Z -> bool)
    (next : Z -> Z) (body : Z -> St -> St) (k : nat) :
  forall (start fuel : nat) (s : St),
    (forall j, (start <= j < start + k)%nat ->
               cond (idx j) = true /\ next (idx j) = idx (S j)) ->
    cond (idx (start + k)%nat) = false ->
    (k < fuel)%nat ->
    for_loop fuel cond next body (idx start) s =
      Some (fold_left (fun s i => body i s) (map idx (seq start k)) s).
Proof.
  induction k as [| k IH]; intros start fuel s Hstep Hstop Hfuel.
  - destruct fuel as [| fuel]; [lia |]. cbn [for_loop seq map fold_left].
    rewrite Nat.add_0_r in Hstop. rewrite Hstop. reflexivity.
  - destruct fuel as [| fuel]; [lia |]. cbn [for_loop seq map fold_left].
    destruct (Hstep start) as [Hc Hn]; [lia |]. rewrite Hc, Hn.
    apply IH.
    + intros j Hj. apply Hstep. lia.
    + replace (S start + k)%nat with (start + S k)%nat by lia. exact Hstop.
    + lia.
Qed.

(** A loop whose test never fails uses up any amount of fuel. *)
Lemma for_loop_diverges {St : Type} (inv : Z -> Prop) (cond : Z -> bool)
    (next : Z -> Z) (body : Z -> St -> St) :
  (forall i, inv i -> cond i = true /\ inv (next i)) ->
  forall (fuel : nat) (i : Z) (s : St),
    inv i -> for_loop fuel cond next body i s = None.
Proof.
  intros Hinv. induction fuel as [| fuel IH]; intros i s Hi; [reflexivity |].
  cbn [for_loop]. destruct (Hinv i Hi) as [-> Hnext]. apply IH. exact Hnext.
Qed.

(** ** Wrap-around *)

Lemma wrap_int_add_l (a b : Z) : wrap_int (wrap_int a + b) = wrap_int (a + b).
Proof.
  unfold wrap_int, INT_MIN, UINT_MODULUS. f_equal.
  replace ((a - -2147483648) mod 4294967296 + -2147483648 + b - -2147483648)
    with ((a - -2147483648) mod 4294967296 + b) by lia.
  rewrite Zplus_mod_idemp_l. f_equal. lia.
Qed.

Lemma wrap_int_range (z : Z) : INT_MIN <= wrap_int z <= INT_MAX.
Proof.
  unfold wrap_int, INT_MIN, INT_MAX, UINT_MODULUS.
  pose proof (Z.mod_pos_bound (z - -2147483648) 4294967296). lia.
Qed.

(** ** The C seed *)

Module CSeedFacts.
Import CSeed.

(** X8: [next_kind] always returns one of the four enumerators.  On the
    enumerators it is the successor modulo 4, every other value goes to
    [KIND_NONE], and from any value one step leads into the cycle of
    length four. *)
Theorem next_kind_cycle (k : Z) :
  KIND_NONE <= next_kind k <= KIND_GAMMA /\
  next_kind k = (if (0 <=? k) && (k <=? 3) then (k + 1) mod 4 else KIND_NONE) /\
  next_kind (next_kind (next_kind (next_kind (next_kind k)))) = next_kind k.
Proof.
  unfold next_kind, KIND_NONE, KIND_ALPHA, KIND_BETA, KIND_GAMMA.
  destruct (Z.eqb_spec k 0) as [-> | H0]; [repeat split; cbn; lia |].
  destruct (Z.eqb_spec k 1) as [-> | H1]; [repeat split; cbn; lia |].
  destruct (Z.eqb_spec k 2) as [-> | H2]; [repeat split; cbn; lia |].
  destruct (Z.eqb_spec k 3) as [-> | H3]; [repeat split; cbn; lia |].
  repeat split; cbn; try lia.
  destruct (Z.leb_spec 0 k), (Z.leb_spec k 3); cbn; lia.
Qed.

(** X9: [dispatch_operation] returns 0 for [KIND_NONE] and for every value
    that names no operation, whatever the operands; and subtracting what
    was added gives back the first operand, also when the sum wrapped
    round. *)
Theorem dispatch_operation_round_trip (kind a b : Z) :
  (kind <> KIND_ALPHA -> kind <> KIND_BETA -> kind <> KIND_GAMMA ->
   dispatch_operation kind a b = 0) /\
  (INT_MIN <= a <= INT_MAX ->
   dispatch_operation KIND_BETA (dispatch_operation KIND_ALPHA a b) b = a).
Proof.
  split.
  - intros Ha Hb Hg. unfold dispatch_operation, choose_op.
    destruct (Z.eqb_spec kind KIND_ALPHA); [contradiction |].
    destruct (Z.eqb_spec kind KIND_BETA); [contradiction |].
    destruct (Z.eqb_spec kind KIND_GAMMA); [contradiction |].
    reflexivity.
  - intros Hrange. unfold dispatch_operation. cbn [choose_op KIND_ALPHA KIND_BETA Z.eqb].
    cbn. unfold op_sub, op_add.
    replace (wrap_int (a + b) - b) with (wrap_int (a + b) + - b) by lia.
    rewrite wrap_int_add_l.
    replace (a + b + - b) with a by lia.
    apply wrap_int_small. exact Hrange.
Qed.

Lemma wrap_int_idem (z : Z) : wrap_int (wrap_int z) = wrap_int z.
Proof. apply wrap_int_small, wrap_int_range. Qed.

Lemma sum_ints_fold (idxs : list Z) :
  forall (sum : Z) (ap : list Z),
    wrap_int sum = sum ->
    (length idxs <= length ap)%nat ->
    fold_left (fun st i => sum_ints_body i st) idxs (Some (sum, ap)) =
      Some (wrap_int (sum + fold_right Z.add 0 (take (length idxs) ap)),
            drop (length idxs) ap).
Proof.
  induction idxs as [| i idxs IH]; intros sum ap Hsum Hlen.
  - cbn [fold_left length take drop fold_right].
    rewrite Z.add_0_r, Hsum. reflexivity.
  - destruct ap as [| x ap]; [simpl in Hlen; lia |].
    cbn [fold_left length take drop fold_right sum_ints_body].
    rewrite IH by (try apply wrap_int_idem; simpl in Hlen; lia).
    rewrite wrap_int_add_l. do 3 f_equal. lia.
Qed.

Lemma sum_ints_fold_undefined (idxs : list Z) :
  forall (st : option (Z * list Z)),
    (match st with
     | Some (_, ap) => (length ap < length idxs)%nat
     | None => True
     end) ->
    fold_left (fun st i => sum_ints_body i st) idxs st = None.
Proof.
  induction idxs as [| i idxs IH]; intros st Hst.
  - destruct st as [[sum ap] |]; [simpl in Hst; lia | reflexivity].
  - cbn [fold_left]. apply IH.
    destruct st as [[sum [| x ap]] |]; cbn [sum_ints_body]; try exact I.
    simpl in Hst. lia.
Qed.

Lemma sum_ints_loop (count : Z) (st : option (Z * list Z)) :
  count <= INT_MAX ->
  for_loop (S (Z.to_nat count)) (fun i => i <? count)
           (fun i => wrap_int (i + 1)) sum_ints_body 0 st =
    Some (fold_left (fun st i => sum_ints_body i st)
                    (map Z.of_nat (seq 0 (Z.to_nat count))) st).
Proof.
  intros Hmax.
  apply (for_loop_run Z.of_nat _ _ _ (Z.to_nat count) 0%nat).
  - intros j Hj. split.
    + apply Z.ltb_lt. lia.
    + rewrite wrap_int_small by int_lia. lia.
  - apply Z.ltb_ge. lia.
  - lia.
Qed.

(** X10: [sum_ints(count, ...)] called with at least [count] further
    arguments returns the sum of the first [count] of them, reduced to an
    [int] (0 when [count] is not positive); called with fewer, it reads an
    argument that is not there. *)
Theorem sum_ints_sum (count : Z) (args : list Z) :
  count <= INT_MAX ->
  (count <= Z.of_nat (length args) ->
   sum_ints count args =
     Some (Some (wrap_int (fold_right Z.add 0 (take (Z.to_nat count) args))))) /\
  (Z.of_nat (length args) < count -> sum_ints count args = Some None).
Proof.
  intros Hmax. unfold sum_ints. rewrite sum_ints_loop by exact Hmax.
  split; intros Hargs.
  - rewrite sum_ints_fold; rewrite ?length_map, ?length_seq; try reflexivity; lia.
  - rewrite sum_ints_fold_undefined; [reflexivity |].
    rewrite length_map, length_seq. lia.
Qed.

Lemma vla_fill (k : nat) :
  forall l : list Z,
    (k <= length l)%nat ->
    Z.of_nat k <= INT_MAX ->
    fold_left (fun vla i => <[Z.to_nat i := wrap_int i]> vla)
              (map Z.of_nat (seq 0 k)) l =
      map Z.of_nat (seq 0 k) ++ drop k l.
Proof.
  induction k as [| k IH]; intros l Hlen Hmax; [reflexivity |].
  rewrite seq_S, map_app, fold_left_app, IH by lia.
  cbn [map fold_left Nat.add].
  rewrite wrap_int_small, Nat2Z.id by int_lia.
  destruct (lookup_lt_is_Some_2 l k) as [x Hx]; [lia |].
  rewrite (drop_S l x k Hx).
  rewrite insert_app_r_alt by (rewrite length_map, length_seq; lia).
  rewrite length_map, length_seq, Nat.sub_diag. cbn [insert].
  rewrite <- app_assoc. reflexivity.
Qed.

Lemma vla_sum (n k : nat) :
  (k <= n <= 64)%nat ->
  2 * fold_left (fun acc i =>
                   wrap_int (acc + default 0 (map Z.of_nat (seq 0 n) !! Z.to_nat i)))
                (map Z.of_nat (seq 0 k)) 0 =
    Z.of_nat k * (Z.of_nat k - 1).
Proof.
  induction k as [| k IH]; intros Hk; [reflexivity |].
  rewrite seq_S, map_app, fold_left_app. cbn [map fold_left Nat.add].
  rewrite Nat2Z.id, list_lookup_fmap, lookup_seq_lt by lia.
  cbn [fmap option_fmap option_map default Nat.add].
  specialize (IH ltac:(lia)).
  assert (Hprod : 0 <= Z.of_nat k * (Z.of_nat k - 1) <= 64 * 63) by nia.
  unfold id.
  set (acc := fold_left _ _ 0) in *.
  assert (Hacc : 0 <= acc <= 2016) by lia.
  rewrite wrap_int_small by int_lia.
  lia.
Qed.

(** X11: [vla_example] refuses 0 and every size above 64 with -1; for a
    size n from 1 to 64 it returns 0 + 1 + ... + (n-1) = n (n-1) / 2,
    whatever the array held before it was filled. *)
Theorem vla_example_result (junk : list Z) (n : Z) :
  0 <= n ->
  vla_example junk n =
    Some (if (n =? 0) || (n >? 64) then -1 else n * (n - 1) / 2).
Proof.
  intros Hn. unfold vla_example.
  destruct ((n =? 0) || (n >? 64)) eqn:Hguard; [reflexivity |].
  apply orb_false_iff in Hguard as [H0 H64].
  apply Z.eqb_neq in H0. rewrite Z.gtb_ltb in H64. apply Z.ltb_ge in H64.
  assert (Hloop : forall (St : Type) (body : Z -> St -> St) (s : St),
            for_loop (S (Z.to_nat n)) (fun i => i <? n)
                     (fun i => to_size_t (i + 1)) body 0 s =
            Some (fold_left (fun s i => body i s)
                            (map Z.of_nat (seq 0 (Z.to_nat n))) s)).
  { intros St body s.
    apply (for_loop_run Z.of_nat _ _ _ (Z.to_nat n) 0%nat).
    - intros j Hj. split; [apply Z.ltb_lt; lia |].
      rewrite to_size_t_small by int_lia. lia.
    - apply Z.ltb_ge. lia.
    - lia. }
  rewrite Hloop. rewrite wrap_int_small by int_lia.
  rewrite vla_fill by (rewrite ?length_resize; int_lia).
  rewrite drop_ge, app_nil_r by (rewrite length_resize; lia).
  rewrite Hloop. f_equal.
  pose proof (vla_sum (Z.to_nat n) (Z.to_nat n) ltac:(lia)) as Hsum.
  rewrite Z2Nat.id in Hsum by lia.
  rewrite <- Hsum, Z.mul_comm, Z.div_mul by lia. reflexivity.
Qed.

End CSeedFacts.

(** ** The Go seed *)

Module GoSeedFacts.
Import GoSeed.

(** X12: with bounds in order, [Clamp] returns a value within the bounds,
    leaves a value within the bounds as it is, and clamping twice is
    clamping once. *)
Theorem Clamp_within (v lo hi : Z) :
  lo <= hi ->
  lo <= Clamp v lo hi <= hi /\
  (lo <= v <= hi -> Clamp v lo hi = v) /\
  Clamp (Clamp v lo hi) lo hi = Clamp v lo hi.
Proof.
  intros Hbounds. unfold Clamp.
  destruct (Z.ltb_spec v lo) as [Hlt | Hge].
  - rewrite Z.ltb_irrefl.
    rewrite Z.gtb_ltb. destruct (Z.ltb_spec hi lo); lia.
  - rewrite Z.gtb_ltb. destruct (Z.ltb_spec hi v) as [Hgt | Hle].
    + destruct (Z.ltb_spec hi lo); [lia |].
      rewrite Z.gtb_ltb, Z.ltb_irrefl. lia.
    + destruct (Z.ltb_spec v lo); [lia |].
      rewrite Z.gtb_ltb. destruct (Z.ltb_spec hi v); lia.
Qed.

Section MapReduceFacts.

Context {T R : Type} (mapFn : T -> R) (reduceFn : R -> R -> R) (zero : R).

Hypothesis reduce_assoc :
  forall a b c, reduceFn (reduceFn a b) c = reduceFn a (reduceFn b c).
Hypothesis reduce_zero_l : forall a, reduceFn zero a = a.
Hypothesis reduce_zero_r : forall a, reduceFn a zero = a.

Lemma MapReduce_from (xs : list T) :
  forall acc,
    fold_left (fun acc v => let m := mapFn v in reduceFn acc m) xs acc =
    reduceFn acc (MapReduce xs mapFn reduceFn zero).
Proof.
  unfold MapReduce. induction xs as [| x xs IH]; intros acc.
  - cbn [fold_left]. symmetry. apply reduce_zero_r.
  - cbn [fold_left]. rewrite IH, (IH (reduceFn zero (mapFn x))).
    rewrite reduce_zero_l. apply reduce_assoc.
Qed.

(** X13: when the reducer is associative and [zero] is its identity on
    both sides, reducing a concatenation is reducing each part and
    combining the two results; reducing the empty slice gives [zero]. *)
Theorem MapReduce_app (xs ys : list T) :
  MapReduce [] mapFn reduceFn zero = zero /\
  MapReduce (xs ++ ys) mapFn reduceFn zero =
    reduceFn (MapReduce xs mapFn reduceFn zero)
             (MapReduce ys mapFn reduceFn zero).
Proof.
  split; [reflexivity |].
  unfold MapReduce at 1. rewrite fold_left_app. apply MapReduce_from.
Qed.

End MapReduceFacts.

(** *** closurePlay *)

Lemma wrap_int64_small (z : Z) :
  - MaxInt64 - 1 <= z <= MaxInt64 -> wrap_int64 z = z.
Proof.
  unfold wrap_int64, MaxInt64. intros Hz. rewrite Z.mod_small; lia.
Qed.

Lemma wrap_int64_range (z : Z) : - MaxInt64 - 1 <= wrap_int64 z <= MaxInt64.
Proof.
  unfold wrap_int64, MaxInt64.
  pose proof (Z.mod_pos_bound (z + 9223372036854775808) 18446744073709551616).
  lia.
Qed.

Lemma wrap_int64_add_l (a b : Z) :
  wrap_int64 (wrap_int64 a + b) = wrap_int64 (a + b).
Proof.
  unfold wrap_int64. f_equal.
  replace ((a + 9223372036854775808) mod 18446744073709551616
           - 9223372036854775808 + b + 9223372036854775808)
    with ((a + 9223372036854775808) mod 18446744073709551616 + b) by lia.
  rewrite Zplus_mod_idemp_l. f_equal. lia.
Qed.

Lemma wrap_int64_mul_l (a b : Z) :
  wrap_int64 (wrap_int64 a * b) = wrap_int64 (a * b).
Proof.
  unfold wrap_int64. f_equal.
  set (m := 18446744073709551616). set (h := 9223372036854775808).
  replace (((a + h) mod m - h) * b + h)
    with (((a + h) mod m) * b + (h - h * b)) by lia.
  rewrite Z.add_mod, Z.mul_mod_idemp_l, <- Z.add_mod by (unfold m; lia).
  f_equal. lia.
Qed.

Lemma closurePlay_fold (k : nat) :
  fold_left (fun (st : Z * Z) i => (wrap_int64 (st.1 + i), wrap_int64 (st.2 * i)))
            (map (fun j : nat => 1 + Z.of_nat j) (seq 0 k)) (0, 1) =
    (wrap_int64 (Z.of_nat k * (Z.of_nat k + 1) / 2),
     wrap_int64 (Z.of_nat (fact k))).
Proof.
  induction k as [| k IH]; [reflexivity |].
  rewrite seq_S, map_app, fold_left_app, IH.
  cbn [map fold_left fst snd Nat.add].
  rewrite wrap_int64_add_l, wrap_int64_mul_l. f_equal; f_equal.
  - replace (Z.of_nat (S k) * (Z.of_nat (S k) + 1))
      with (Z.of_nat k * (Z.of_nat k + 1) + (1 + Z.of_nat k) * 2) by lia.
    rewrite Z.div_add by lia. reflexivity.
  - change (fact (S k)) with (S k * fact k)%nat. lia.
Qed.

(** X14: for n below the largest [int], [closurePlay(n)] returns the sum
    1 + ... + n = n (n+1) / 2 and the product 1 * ... * n = n!, both
    reduced to 64 bits; it returns (0, 1) when n is not positive. *)
Theorem closurePlay_result (n : Z) :
  n < MaxInt64 ->
  closurePlay n =
    Some (wrap_int64 (Z.max 0 n * (Z.max 0 n + 1) / 2),
          wrap_int64 (Z.of_nat (fact (Z.to_nat n)))).
Proof.
  intros Hn. unfold closurePlay, closurePlay_loop.
  rewrite (for_loop_run (fun j : nat => 1 + Z.of_nat j) _ _ _ (Z.to_nat n) 0%nat).
  - rewrite (closurePlay_fold (Z.to_nat n)). do 3 f_equal; lia.
  - intros j Hj. split; [apply Z.leb_le; lia |].
    rewrite wrap_int64_small by (unfold MaxInt64 in *; lia). lia.
  - apply Z.leb_gt. lia.
  - lia.
Qed.

(** X15: [closurePlay] of the largest [int] never returns: the index wraps
    round before the test [i <= n] can fail. *)
Theorem closurePlay_MaxInt64_diverges (fuel : nat) :
  closurePlay_loop fuel MaxInt64 = None.
Proof.
  unfold closurePlay_loop.
  apply (for_loop_diverges (fun i => i <= MaxInt64)).
  - intros i Hi. split; [apply Z.leb_le; exact Hi |].
    apply wrap_int64_range.
  - unfold MaxInt64. lia.
Qed.

(** *** invertMap *)

Section InvertMapFacts.

Context {K V : Type} `{Countable K} `{Countable V}.

Lemma invertMap_fold (entries : list (K * V)) (v : V) :
  forall res : gmap V (list K),
    default [] (fold_left invertMap_step entries res !! v) =
    default [] (res !! v) ++
    map fst (List.filter (fun kv => bool_decide (snd kv = v)) entries).
Proof.
  induction entries as [| [k0 v0] entries IH]; intros res.
  - cbn [fold_left List.filter map]. rewrite app_nil_r. reflexivity.
  - cbn [fold_left List.filter]. rewrite IH. unfold invertMap_step.
    cbn [fst snd]. destruct (decide (v0 = v)) as [-> | Hne].
    + rewrite lookup_insert_eq, bool_decide_eq_true_2 by reflexivity.
      cbn. rewrite <- app_assoc. reflexivity.
    + rewrite lookup_insert_ne, bool_decide_eq_false_2 by assumption.
      reflexivity.
Qed.

(** X16: whatever the order in which [range] delivers the pairs of the
    map, the slice [invertMap] stores under a value holds exactly the keys
    the map sends to that value, each of them once. *)
Theorem invertMap_keys (m : gmap K V) (entries : list (K * V)) :
  Permutation entries (map_to_list m) ->
  forall (k : K) (v : V),
    (In k (default [] (invertMap entries !! v)) <-> m !! k = Some v) /\
    List.NoDup (default [] (invertMap entries !! v)).
Proof.
  intros Hperm k v. unfold invertMap.
  rewrite invertMap_fold, lookup_empty. cbn [default app].
  split.
  - rewrite in_map_iff. split.
    + intros ([k' v'] & Hk & Hin). cbn [fst] in Hk. subst k'.
      apply filter_In in Hin as [Hin Hv]. cbn [snd] in Hv.
      apply bool_decide_eq_true_1 in Hv. subst v'.
      apply elem_of_map_to_list, list_elem_of_In.
      apply (Permutation_in _ Hperm). exact Hin.
    + intros Hm. exists (k, v). split; [reflexivity |].
      apply filter_In. split.
      * apply (Permutation_in _ (Permutation_sym Hperm)).
        apply list_elem_of_In, elem_of_map_to_list. exact Hm.
      * cbn [snd]. apply bool_decide_eq_true_2. reflexivity.
  - assert (Hnodup : List.NoDup (map fst entries)).
    { apply NoDup_ListNoDup.
      rewrite Hperm. apply NoDup_fst_map_to_list. }
    clear Hperm. induction entries as [| [k0 v0] entries IH].
    + constructor.
    + cbn [map fst] in Hnodup. apply List.NoDup_cons_iff in Hnodup as [Hnotin Hrest].
      cbn [List.filter snd]. destruct (bool_decide (v0 = v)); [| apply IH; exact Hrest].
      cbn [map fst]. constructor; [| apply IH; exact Hrest].
      intros Hin. apply Hnotin. apply in_map_iff in Hin as (kv & Hkv & Hin).
      apply filter_In in Hin as [Hin _]. apply in_map_iff. exists kv. split; assumption.
Qed.

End InvertMapFacts.

End GoSeedFacts.

(** * The further statements at concrete inputs *)

Lemma mutate_within_int_range_witness :
  Z.of_nat (length sample_bytes) <= INT_MAX /\
  @mutate iso_rand sample_bytes 2024 =
    Some (LoopState (@mutate_spec iso_rand sample_bytes 2024).1
                    (@mutate_spec iso_rand sample_bytes 2024).2
                    (map Z.of_nat (seq 0 (length sample_bytes)))).
Proof.
  assert (Hlen : Z.of_nat (length sample_bytes) <= INT_MAX) by (simpl; int_lia).
  split; [exact Hlen |].
  exact (@mutate_within_int_range iso_rand sample_bytes 2024 Hlen).
Defined.

Lemma mutate_app_witness :
  let a := list_ascii_of_string "int " in
  let b := list_ascii_of_string "main" in
  Z.of_nat (length (a ++ b)) <= INT_MAX /\
  exists sa sb sab : @loop_state iso_rand,
    @mutate iso_rand a 2024 = Some sa /\
    @mutate iso_rand b (ls_gen sa) = Some sb /\
    @mutate iso_rand (a ++ b) 2024 = Some sab /\
    ls_data sab = ls_data sa ++ ls_data sb /\
    ls_gen sab = ls_gen sb /\
    take (length a) (ls_data sab) = ls_data sa.
Proof.
  intros a b.
  assert (Hlen : Z.of_nat (length (a ++ b)) <= INT_MAX) by (simpl; int_lia).
  split; [exact Hlen |].
  exact (@mutate_app iso_rand a b 2024 Hlen).
Defined.

Lemma mutate_draw_count_witness :
  Z.of_nat (length sample_bytes) <= INT_MAX /\
  exists (st : @loop_state iso_rand) (k : nat),
    @mutate iso_rand sample_bytes 2024 = Some st /\
    (length sample_bytes <= k <= 2 * length sample_bytes)%nat /\
    ls_gen st = @advance iso_rand k 2024.
Proof.
  assert (Hlen : Z.of_nat (length sample_bytes) <= INT_MAX) by (simpl; int_lia).
  split; [exact Hlen |].
  exact (@mutate_draw_count iso_rand sample_bytes 2024 Hlen).
Defined.

Lemma mutate_all_odd_identity_witness :
  let data := list_ascii_of_string "abc" in
  Z.of_nat (length data) <= INT_MAX /\
  @all_odd replay_rand (length data) [1; 3; 5; 8] = true /\
  @mutate replay_rand data [1; 3; 5; 8] =
    Some (@LoopState replay_rand data
            (@advance replay_rand (length data) [1; 3; 5; 8])
            (map Z.of_nat (seq 0 (length data)))).
Proof.
  intros data.
  assert (Hlen : Z.of_nat (length data) <= INT_MAX) by (simpl; int_lia).
  split; [exact Hlen |]. split; [reflexivity |].
  exact (@mutate_all_odd_identity replay_rand data [1; 3; 5; 8] Hlen eq_refl).
Defined.

Lemma mutate_content_independent_witness :
  let d1 := list_ascii_of_string "abcd" in
  let d2 := list_ascii_of_string "wxyz" in
  length d1 = length d2 /\
  Z.of_nat (length d1) <= INT_MAX /\
  exists s1 s2 : @loop_state iso_rand,
    @mutate iso_rand d1 2024 = Some s1 /\ @mutate iso_rand d2 2024 = Some s2 /\
    ls_gen s1 = ls_gen s2 /\
    forall k : nat,
      (ls_data s1 !! k = d1 !! k /\ ls_data s2 !! k = d2 !! k) \/
      ls_data s1 !! k = ls_data s2 !! k.
Proof.
  intros d1 d2.
  assert (Hlen : Z.of_nat (length d1) <= INT_MAX) by (simpl; int_lia).
  split; [reflexivity |]. split; [exact Hlen |].
  exact (@mutate_content_independent iso_rand d1 d2 2024 eq_refl Hlen).
Defined.


Lemma mutate_reaches_target_witness :
  let data := list_ascii_of_string "abc" in
  let target := list_ascii_of_string "xyz" in
  length data = length target /\
  Z.of_nat (length data) <= INT_MAX /\
  exists st,
    @mutate replay_rand data (script_for target) = Some st /\
    ls_data st = target /\
    ls_gen st = [].
Proof.
  intros data target.
  assert (Hlen : Z.of_nat (length data) <= INT_MAX) by (simpl; int_lia).
  split; [reflexivity |]. split; [exact Hlen |].
  exact (mutate_reaches_target data target eq_refl Hlen).
Defined.

Lemma sum_ints_sum_witness :
  4 <= INT_MAX /\
  (4 <= Z.of_nat (length [1; 2; 3; 4]) ->
   CSeed.sum_ints 4 [1; 2; 3; 4] =
     Some (Some (wrap_int (fold_right Z.add 0 (take (Z.to_nat 4) [1; 2; 3; 4]))))) /\
  (Z.of_nat (length [1; 2; 3; 4]) < 4 -> CSeed.sum_ints 4 [1; 2; 3; 4] = Some None).
Proof.
  assert (Hmax : 4 <= INT_MAX) by int_lia.
  split; [exact Hmax |].
  exact (CSeedFacts.sum_ints_sum 4 [1; 2; 3; 4] Hmax).
Defined.

Lemma vla_example_result_witness :
  0 <= 5 /\
  CSeed.vla_example [7; 7] 5 =
    Some (if (5 =? 0) || (5 >? 64) then -1 else 5 * (5 - 1) / 2).
Proof.
  assert (Hn : 0 <= 5) by lia.
  split; [exact Hn |].
  exact (CSeedFacts.vla_example_result [7; 7] 5 Hn).
Defined.

Lemma Clamp_within_witness :
  0 <= 10 /\
  0 <= GoSeed.Clamp 37 0 10 <= 10 /\
  (0 <= 37 <= 10 -> GoSeed.Clamp 37 0 10 = 37) /\
  GoSeed.Clamp (GoSeed.Clamp 37 0 10) 0 10 = GoSeed.Clamp 37 0 10.
Proof.
  assert (Hbounds : 0 <= 10) by lia.
  split; [exact Hbounds |].
  exact (GoSeedFacts.Clamp_within 37 0 10 Hbounds).
Defined.

Lemma MapReduce_app_witness :
  GoSeed.MapReduce [] (fun x => x * x) Z.add 0 = 0 /\
  GoSeed.MapReduce ([1; 2] ++ [3; 4]) (fun x => x * x) Z.add 0 =
    GoSeed.MapReduce [1; 2] (fun x => x * x) Z.add 0 +
    GoSeed.MapReduce [3; 4] (fun x => x * x) Z.add 0.
Proof.
  exact (GoSeedFacts.MapReduce_app (fun x => x * x) Z.add 0
           (fun a b c => eq_sym (Z.add_assoc a b c)) Z.add_0_l Z.add_0_r
           [1; 2] [3; 4]).
Defined.

Lemma closurePlay_result_witness :
  4 < GoSeed.MaxInt64 /\
  GoSeed.closurePlay 4 =
    Some (GoSeed.wrap_int64 (Z.max 0 4 * (Z.max 0 4 + 1) / 2),
          GoSeed.wrap_int64 (Z.of_nat (fact (Z.to_nat 4)))).
Proof.
  assert (Hn : 4 < GoSeed.MaxInt64) by (unfold GoSeed.MaxInt64; lia).
  split; [exact Hn |].
  exact (GoSeedFacts.closurePlay_result 4 Hn).
Defined.

Lemma invertMap_keys_witness :
  let m : gmap Z Z := list_to_map [(1, 10); (2, 20); (3, 10)] in
  Permutation (map_to_list m) (map_to_list m) /\
  forall (k v : Z),
    (In k (default [] (GoSeed.invertMap (map_to_list m) !! v)) <-> m !! k = Some v) /\
    List.NoDup (default [] (GoSeed.invertMap (map_to_list m) !! v)).
Proof.
  intros m.
  split; [apply Permutation_refl |].
  exact (GoSeedFacts.invertMap_keys m (map_to_list m) (Permutation_refl _)).
Defined.
